(** * Sherlock: the group vault subsystem

    A shallow embedding of [internal/sherlock.go] (the orchestrator, the
    [StateOption] mutations and [SplitQuery]) and of the [Group] type with
    its methods, together with the properties of the specification that
    are stated about them.

    Conventions.
    - A Go [error] result is an [option Error] ([None] is [nil]); a Go
      [(T, error)] result is a [Result T].
    - Go strings are byte strings: [string] of the Standard Library.
    - [*Group] arguments that a function mutates are passed and returned
      explicitly.  The slice [Accounts []*Account] holds one pointer per
      slot; the pointer [lookup] hands out is modelled as the slot index
      together with the account stored there, and a write through the
      pointer is a list update at that slot. *)

From stdpp Require Import base list strings gmap.
From Stdlib Require Import Ascii String ZArith Lia.

Open Scope string_scope.

(** ** Errors *)

(** The package-level error values, and [ErrOther] for the errors that the
    collaborators (file system, codec, JSON encoder) produce. *)
Inductive Error : Type :=
  | ErrNotSetup
  | ErrNoSuchGroup
  | ErrWrongKey
  | ErrInvalidQuery
  | ErrAccountExists
  | ErrNoSuchAccount
  | ErrOther (msg : string).

Inductive Result (T : Type) : Type :=
  | Ok (v : T)
  | Err (e : Error).
Arguments Ok {T} v.
Arguments Err {T} e.

(** ** Accounts and groups *)

(** Modelled from the spec: the [Account] struct is declared in another
    file of package [internal], which is not embedded here; the fields are
    the ones of the data model ([name], [tag], [secret], [created_on]), the
    first two and the last under the names the code uses for them. *)
Record Account : Type := mkAccount {
  Name : string;
  Tag : string;
  Secret : string;
  CreatedOn : Z
}.

Record Group : Type := mkGroup {
  GID : string;
  Accounts : list Account
}.

Definition NewGroup (name : string) : Group :=
  {| GID := name; Accounts := [] |}.

Definition with_accounts (g : Group) (l : list Account) : Group :=
  {| GID := GID g; Accounts := l |}.

(** [Group.exists]: the (name, tag) pair is the key of an account. *)
Definition Group_exists (g : Group) (account : Account) : bool :=
  existsb (fun a => String.eqb (Name account) (Name a)
                    && String.eqb (Tag account) (Tag a)) (Accounts g).

(** [Group.append]. *)
Definition Group_append (g : Group) (account : Account)
  : Group * option Error :=
  if Group_exists g account then (g, Some ErrAccountExists)
  else (with_accounts g (Accounts g ++ [account]), None).

(** The loop of [Group.lookup], counting the slots passed so far. *)
Fixpoint lookup_from (i : nat) (l : list Account) (accountName : string)
  : option (nat * Account) :=
  match l with
  | [] => None
  | a :: l' =>
      if String.eqb (Name a) accountName then Some (i, a)
      else lookup_from (S i) l' accountName
  end.

(** [Group.lookup]: the slot and the account of the first match. *)
Definition Group_lookup (g : Group) (accountName : string)
  : Result (nat * Account) :=
  match lookup_from 0 (Accounts g) accountName with
  | Some p => Ok p
  | None => Err ErrNoSuchAccount
  end.

(** [Group.delete] takes the address of the range variable [i]
    ([offset = &i]) and reads it back after the loop.  What it reads
    depends on the language version the module is built with: up to
    Go 1.21 the loop has one variable [i], from Go 1.22 on every iteration
    has its own. *)
Inductive LoopVar : Type :=
  | PerLoop
  | PerIteration.

(** The address [&i] taken in iteration [iter]. *)
Definition addr_of_i (sem : LoopVar) (iter : nat) : nat :=
  match sem with
  | PerLoop => 0
  | PerIteration => iter
  end.

(** The value read at an address once the loop over [len] elements is
    over: the single variable holds the index of the last iteration, a
    per-iteration variable the index of its iteration. *)
Definition load_i (sem : LoopVar) (len : nat) (addr : nat) : nat :=
  match sem with
  | PerLoop => len - 1
  | PerIteration => addr
  end.

(** The loop of [Group.delete]; there is no [break]. *)
Fixpoint delete_scan (sem : LoopVar) (i : nat) (l : list Account)
    (account : string) (offset : option nat) : option nat :=
  match l with
  | [] => offset
  | a :: l' =>
      delete_scan sem (S i) l' account
        (if String.eqb (Name a) account then Some (addr_of_i sem i)
         else offset)
  end.

(** [Group.delete]. *)
Definition Group_delete (sem : LoopVar) (g : Group) (account : string)
  : Group * option Error :=
  match delete_scan sem 0 (Accounts g) account None with
  | None => (g, Some ErrNoSuchAccount)
  | Some p =>
      let offset := load_i sem (List.length (Accounts g)) p in
      (with_accounts g (take offset (Accounts g) ++ drop (S offset) (Accounts g)),
       None)
  end.

(** Replacing the tag of an account. *)
Definition retag (f : Account -> string) (a : Account) : Account :=
  {| Name := Name a; Tag := f a; Secret := Secret a;
     CreatedOn := CreatedOn a |}.

(** ** Field updates *)

(** Modelled from the spec: [Account.update] is declared with [Account],
    in the file that is not embedded.  It applies exactly one field
    mutation to the account; a refused mutation leaves the account as it
    was. *)
Definition update (a : Account) (f : Account -> Result Account)
  : Account * option Error :=
  match f a with
  | Ok a' => (a', None)
  | Err e => (a, Some e)
  end.

(** Modelled from the spec: [updateFieldName], missing like [update]; it
    sets the name and has no error condition. *)
Definition updateFieldName (name : string) : Account -> Result Account :=
  fun a => Ok {| Name := name; Tag := Tag a; Secret := Secret a;
                 CreatedOn := CreatedOn a |}.

(** Modelled from the spec: [updateFieldTag], missing like [update]; it
    sets the tag and has no error condition. *)
Definition updateFieldTag (tag : string) : Account -> Result Account :=
  fun a => Ok {| Name := Name a; Tag := tag; Secret := Secret a;
                 CreatedOn := CreatedOn a |}.


(** Modelled from the spec: [OptAccName] calls [g.exists(name)] on the new
    name, a string, while the [Group.exists] above takes an account; the
    check by name alone is missing, and is the one the spec describes for the
    rename ("[new_name] already identifies an account in the group").  It
    receives the group and the new name only. *)
Definition Group_exists_name (g : Group) (name : string) : bool :=
  existsb (fun a => String.eqb name (Name a)) (Accounts g).

(** ** The state mutation protocol *)

(** [type StateOption func(g *Group, acc string) error]: the group after
    the call and the error. *)
Definition StateOption : Type := Group -> string -> Group * option Error.

(** The write [account.update(f)] through the pointer that [lookup]
    returned for slot [i]. *)
Definition update_slot (g : Group) (i : nat) (a : Account)
    (f : Account -> Result Account) : Group * option Error :=
  let '(a', err) := update a f in
  (with_accounts g (<[i := a']> (Accounts g)), err).

Definition OptAddAccount (account : Account) : StateOption :=
  fun g acc => Group_append g account.


Definition OptAccName (name : string) : StateOption :=
  fun g acc =>
    if Group_exists_name g name then (g, Some ErrAccountExists)
    else
      match Group_lookup g acc with
      | Err e => (g, Some e)
      | Ok (i, account) => update_slot g i account (updateFieldName name)
      end.

Definition OptsAccTag (tag : string) : StateOption :=
  fun g acc =>
    match Group_lookup g acc with
    | Err e => (g, Some e)
    | Ok (i, account) => update_slot g i account (updateFieldTag tag)
    end.


(** ** The query resolver *)

Definition querySplitPoint : ascii := "@"%char.

(** [strings.Split] for a one-byte separator: the pieces between the
    occurrences of [sep], one more than there are occurrences. *)
Fixpoint Split (s : string) (sep : ascii) : list string :=
  match s with
  | EmptyString => [EmptyString]
  | String c s' =>
      if Ascii.eqb c sep then EmptyString :: Split s' sep
      else
        match Split s' sep with
        | [] => [String c EmptyString]
        | piece :: pieces => String c piece :: pieces
        end
  end.

Definition SplitQuery (query : string) : Result (string * string) :=
  match Split query querySplitPoint with
  | [gid; name] => Ok (gid, name)
  | _ => Err ErrInvalidQuery
  end.

(** Number of occurrences of a byte in a string. *)
Fixpoint count_byte (c : ascii) (s : string) : nat :=
  match s with
  | EmptyString => 0
  | String c' s' => (if Ascii.eqb c' c then 1 else 0) + count_byte c s'
  end.

(** ** The collaborators *)

Definition bytes : Type := list Byte.byte.

(** [type FileSystem interface]: the methods over the state [St] of the
    store.  The existence checks and the reads observe the store; the
    other methods may change it. *)
Class FileSystem (St : Type) : Type := {
  InitFs : St -> bytes -> St * option Error;
  CreateGroup : St -> string -> bytes -> St * option Error;
  GroupExists : St -> string -> option Error;
  VaultExists : St -> string -> option Error;
  ReadGroupVault : St -> string -> Result bytes;
  Delete : St -> string -> St * option Error;
  Write : St -> string -> bytes -> St * option Error;
  ReadRegisteredGroups : St -> Result (list string)
}.

(** The [security] package and [json.Marshal], as far as the orchestrator
    calls them.  [DecryptVault] fills the group it is given or fails with
    an error of its own. *)
Class Security : Type := {
  InitWithDefault : string -> Group -> Result bytes;
  EncryptVault : bytes -> string -> Result bytes;
  DecryptVault : bytes -> string -> Result Group;
  Marshal : Group -> Result bytes
}.

(** ** The orchestrator *)

Section Sherlock.
Context {St : Type} `{FS : FileSystem St} `{SEC : Security}.

Definition IsSetUp (sh : St) : option Error :=
  match GroupExists sh "default" with
  | None => Some ErrNotSetup
  | Some _ =>
      match VaultExists sh "default" with
      | None => Some ErrNotSetup
      | Some _ => None
      end
  end.

Definition Setup (sh : St) (groupKey : string) : St * option Error :=
  match InitWithDefault groupKey {| GID := "default"; Accounts := [] |} with
  | Err e => (sh, Some e)
  | Ok vault => InitFs sh vault
  end.

Definition DeleteGroup (sh : St) (gid : string) : St * option Error :=
  Delete sh gid.

Definition CheckGroupKey (sh : St) (query groupKey : string)
  : option Error :=
  match SplitQuery query with
  | Err e => Some e
  | Ok (gid, _) =>
      match ReadGroupVault sh gid with
      | Err e => Some e
      | Ok data =>
          match DecryptVault data groupKey with
          | Err _ => Some ErrWrongKey
          | Ok _ => None
          end
      end
  end.

Definition LoadGroup (sh : St) (gid groupKey : string) : Result Group :=
  match ReadGroupVault sh gid with
  | Err e => Err e
  | Ok data =>
      match DecryptVault data groupKey with
      | Err _ => Err ErrWrongKey
      | Ok group => Ok group
      end
  end.

Definition serizalize (g : Group) : Result bytes := Marshal g.

Definition WriteGroup (sh : St) (gid groupKey : string) (group : Group)
  : St * option Error :=
  match serizalize group with
  | Err e => (sh, Some e)
  | Ok serialized =>
      match EncryptVault serialized groupKey with
      | Err e => (sh, Some e)
      | Ok encrypted => Write sh gid encrypted
      end
  end.

Definition GetAccount (sh : St) (query groupKey : string)
  : Result Account :=
  match SplitQuery query with
  | Err e => Err e
  | Ok (gid, name) =>
      match LoadGroup sh gid groupKey with
      | Err e => Err e
      | Ok group =>
          match Group_lookup group name with
          | Err e => Err e
          | Ok (_, account) => Ok account
          end
      end
  end.

Definition UpdateState (sh : St) (query groupKey : string)
    (opt : StateOption) : St * option Error :=
  match SplitQuery query with
  | Err e => (sh, Some e)
  | Ok (gid, name) =>
      match LoadGroup sh gid groupKey with
      | Err e => (sh, Some e)
      | Ok group =>
          match opt group name with
          | (_, Some e) => (sh, Some e)
          | (group', None) => WriteGroup sh gid groupKey group'
          end
      end
  end.

End Sherlock.

(** ** A store in memory and a table-driven codec

    An instance of the two interfaces on which the statements below can be
    run: the store keeps the registered group names and one blob per group,
    the codec knows one blob and the key it opens with. *)

Record MemFs : Type := mkMemFs {
  registered : list string;
  vaults : gmap string bytes
}.

Definition mem_exists (names : list string) (name : string) : option Error :=
  if existsb (String.eqb name) names then Some (ErrOther "already exists")
  else None.

#[export] Instance MemFs_FileSystem : FileSystem MemFs := {|
  InitFs st vault :=
    ({| registered := registered st ++ ["default"];
        vaults := <["default" := vault]> (vaults st) |}, None);
  CreateGroup st name vault :=
    match vaults st !! name with
    | Some _ => (st, Some (ErrOther "already exists"))
    | None => ({| registered := registered st ++ [name];
                  vaults := <[name := vault]> (vaults st) |}, None)
    end;
  GroupExists st name := mem_exists (registered st) name;
  VaultExists st name :=
    match vaults st !! name with
    | Some _ => Some (ErrOther "already exists")
    | None => None
    end;
  ReadGroupVault st gid :=
    match vaults st !! gid with
    | Some data => Ok data
    | None => Err ErrNoSuchGroup
    end;
  Delete st gid :=
    ({| registered := filter (fun n => n ≠ gid) (registered st);
        vaults := delete gid (vaults st) |}, None);
  Write st gid data :=
    ({| registered := registered st;
        vaults := <[gid := data]> (vaults st) |}, None);
  ReadRegisteredGroups st := Ok (registered st)
|}.

Definition bakerstreet : Account :=
  {| Name := "bakerstreet"; Tag := "221b"; Secret := "s3cret";
     CreatedOn := 0 |}.

Definition detective : Group :=
  {| GID := "detective"; Accounts := [bakerstreet] |}.

Definition detective_blob : bytes := list_byte_of_string "sealed:detective".

Definition bytes_eqb (x y : bytes) : bool :=
  String.eqb (string_of_list_byte x) (string_of_list_byte y).

#[export] Instance Table_Security : Security := {|
  InitWithDefault key g :=
    Ok (list_byte_of_string ("sealed:" ++ GID g));
  EncryptVault plain key := Ok (app (list_byte_of_string "sealed:") plain);
  DecryptVault data key :=
    if bytes_eqb data detective_blob then
      if String.eqb key "K2" then Ok detective
      else Err (ErrOther "cipher: message authentication failed")
    else Err (ErrOther "unexpected end of JSON input");
  Marshal g := Ok (list_byte_of_string (GID g))
|}.

(** The store after [Setup] and [SetupGroup "detective"]. *)
Definition two_groups : MemFs :=
  {| registered := ["default"; "detective"];
     vaults := <["detective" := detective_blob]>
                 (<["default" := list_byte_of_string "sealed:default"]> ∅) |}.

(** The store in which the metadata of [default] is there and its vault is
    not. *)
Definition metadata_only : MemFs :=
  {| registered := ["default"]; vaults := ∅ |}.

(** Two accounts with one name under two tags, and a second account of the
    detective. *)
Definition mail_work : Account :=
  {| Name := "mail"; Tag := "work"; Secret := "w0rk"; CreatedOn := 1 |}.

Definition mail_home : Account :=
  {| Name := "mail"; Tag := "home"; Secret := "h0me"; CreatedOn := 2 |}.

Definition scotlandyard : Account :=
  {| Name := "scotlandyard"; Tag := ""; Secret := "l3strade";
     CreatedOn := 3 |}.

Definition mailboxes : Group :=
  {| GID := "default"; Accounts := [mail_work; mail_home] |}.

Definition cases : Group :=
  {| GID := "detective"; Accounts := [bakerstreet; scotlandyard] |}.

(** ** Vocabulary of the statements *)

(** The key of an account, and the invariant of a group: no two accounts
    with the same key. *)
Definition account_key (a : Account) : string * string := (Name a, Tag a).

Definition unique_keys (g : Group) : Prop :=
  NoDup (account_key <$> Accounts g).


(** The sequence without its first account named [n]. *)
Fixpoint remove_first (n : string) (l : list Account) : list Account :=
  match l with
  | [] => []
  | a :: l' => if String.eqb (Name a) n then l' else a :: remove_first n l'
  end.

(** ** The table of a group *)

Definition prettyDateLayout : string := "Monday, 02. January 2006".

(** [strings.Join]. *)
Fixpoint Join (elems : list string) (sep : string) : string :=
  match elems with
  | [] => ""
  | [e] => e
  | e :: rest => e ++ sep ++ Join rest sep
  end.

(** The loop of [Group.Table]: row [i] of the table allocated beforehand is
    assigned in iteration [i].  [Format] is [time.Time.Format]. *)
Fixpoint Table_loop (Format : Z -> string -> string) (gid : string)
    (i : nat) (items : list Account) (accounts : list (list string))
  : list (list string) :=
  match items with
  | [] => accounts
  | item :: rest =>
      Table_loop Format gid (S i) rest
        (<[i := [gid; Name item; Join ["#"; Tag item] "";
                 Format (CreatedOn item) prettyDateLayout]]> accounts)
  end.

(** [Group.Table]. *)
Definition Group_Table (Format : Z -> string -> string) (g : Group)
  : list (list string) :=
  Table_loop Format (GID g) 0 (Accounts g)
    (replicate (List.length (Accounts g)) []).

(** ** Package terminal *)

Definition newline : ascii := "010"%char.

(** [bufio.Reader.ReadString] on the bytes that are still to be read: the
    text up to the first [delim], [delim] included; when the input ends
    before a [delim], the text read and [io.EOF]. *)
Fixpoint ReadString (input : string) (delim : ascii)
  : string * option Error :=
  match input with
  | EmptyString => (EmptyString, Some (ErrOther "EOF"))
  | String c rest =>
      if Ascii.eqb c delim then (String c EmptyString, None)
      else let '(s, err) := ReadString rest delim in (String c s, err)
  end.

(** [ReadLine], on the bytes pending on the standard input; the prompt is
    output only. *)
Definition ReadLine (stdin : string) : string * option Error :=
  ReadString stdin newline.

(** [strings.HasSuffix] and [strings.TrimSuffix]. *)
Definition HasSuffix (s suffix : string) : bool :=
  Nat.leb (String.length suffix) (String.length s)
  && String.eqb
       (substring (String.length s - String.length suffix)
          (String.length suffix) s) suffix.

Definition TrimSuffix (s suffix : string) : string :=
  if HasSuffix s suffix
  then substring 0 (String.length s - String.length suffix) s
  else s.

(** [YesNo]: the error of [ReadString] is dropped. *)
Definition YesNo (stdin : string) : bool :=
  let '(input, _) := ReadString stdin newline in
  String.eqb (TrimSuffix input (String newline EmptyString)) "y".

(** The colours of [tablewriter] that the package names. *)
Inductive Color : Type :=
  | Bold
  | BgBlueColor
  | BgMagentaColor
  | BgGreenColor
  | BgYellowColor
  | BgHiRedColor.

Definition bgC : list Color :=
  [BgBlueColor; BgMagentaColor; BgGreenColor; BgYellowColor; BgHiRedColor].

(** The loop of [buildHeader]; [None] is the run-time panic of an index
    out of range in [bgC[i%len(h)]]. *)
Fixpoint buildHeader_loop (len i steps : nat) (colors : list (list Color))
  : option (list (list Color)) :=
  match steps with
  | 0 => Some colors
  | S steps' =>
      match bgC !! (i mod len) with
      | None => None
      | Some c =>
          buildHeader_loop len (S i) steps' (<[i := [Bold; c]]> colors)
      end
  end.

(** [buildHeader]: the colours handed to [SetHeaderColor]. *)
Definition buildHeader (h : list string) : option (list (list Color)) :=
  buildHeader_loop (List.length h) 0 (List.length h)
    (replicate (List.length h) []).

(** The loop of [padding]: the slice is written in place. *)
Fixpoint padding_loop (i steps : nat) (h : list string) : list string :=
  match steps with
  | 0 => h
  | S steps' =>
      match h !! i with
      | Some v => padding_loop (S i) steps' (<[i := " " ++ v ++ " "]> h)
      | None => h
      end
  end.

Definition padding (h : list string) : list string :=
  padding_loop 0 (List.length h) h.

(** ** The update command *)

(** What the command prints last: [terminal.Error] with the error, or
    [terminal.Info] with a message. *)
Inductive Printed : Type :=
  | PrintedError (e : Error)
  | PrintedInfo (msg : string).

Section Commands.
Context {St : Type} `{FS : FileSystem St} `{SEC : Security}.

(** The [Run] function of [cmdUpdateAccName], on the query [args0], the
    result of [terminal.ReadPassword] and the bytes pending on the
    standard input when the new name is asked for. *)
Definition cmdUpdateAccName (sh : St) (args0 : string)
    (readPassword : Result string) (stdin : string) : St * Printed :=
  match readPassword with
  | Err err => (sh, PrintedError err)
  | Ok groupKey =>
      match ReadLine stdin with
      | (_, Some err) => (sh, PrintedError err)
      | (name, None) =>
          match UpdateState sh args0 groupKey (OptAccName name) with
          | (sh', Some err) => (sh', PrintedError err)
          | (sh', None) => (sh', PrintedInfo "account name updated")
          end
      end
  end.

End Commands.

(** ** A codec that opens the blobs of the groups it has on file *)






(** * Properties *)

(** ** Groups *)

Lemma Group_exists_spec (g : Group) (a : Account) :
  Group_exists g a = true ↔
  ∃ b, b ∈ Accounts g ∧ Name b = Name a ∧ Tag b = Tag a.
Proof.
  unfold Group_exists. rewrite existsb_exists. split.
  - intros (b & Hin & Hb). apply andb_true_iff in Hb as [Hn Ht].
    apply String.eqb_eq in Hn, Ht. exists b.
    rewrite list_elem_of_In. auto.
  - intros (b & Hin & Hn & Ht). exists b. rewrite <- list_elem_of_In.
    split; [done|]. rewrite Hn, Ht, !String.eqb_refl. done.
Qed.

(** C2. [Group.append] puts the account at the end of the sequence exactly
    when no account of the group has its name and its tag; otherwise, and
    only then, it fails with [ErrAccountExists] and the group, its sequence
    included, is the one it was. *)
Theorem append_iff_no_collision (g : Group) (a : Account) :
  (Group_append g a = (with_accounts g (Accounts g ++ [a]), None) ↔
     ¬ ∃ b, b ∈ Accounts g ∧ Name b = Name a ∧ Tag b = Tag a)
  ∧ (Group_append g a = (g, Some ErrAccountExists) ↔
     ∃ b, b ∈ Accounts g ∧ Name b = Name a ∧ Tag b = Tag a).
Proof.
  rewrite <- Group_exists_spec. unfold Group_append.
  destruct (Group_exists g a); (split; split); done.
Qed.

Lemma lookup_from_spec (l : list Account) (n : string) :
  ∀ k i a,
    lookup_from k l n = Some (i, a) ↔
    ∃ j, i = k + j ∧ l !! j = Some a ∧ Name a = n ∧
         ∀ j' b, j' < j → l !! j' = Some b → Name b ≠ n.
Proof.
  induction l as [|x l IH]; intros k i a; simpl.
  - split; [done|]. by intros (j & _ & Hl & _).
  - destruct (String.eqb_spec (Name x) n) as [Heq|Hne].
    + split.
      * intros [= <- <-]. exists 0. repeat split; [lia|done|]. intros; lia.
      * intros (j & -> & Hj & Ha & Hfirst). destruct j as [|j].
        -- simpl in Hj. injection Hj as <-. do 2 f_equal. lia.
        -- exfalso. apply (Hfirst 0 x); [lia|done|done].
    + rewrite IH. split.
      * intros (j & -> & Hj & Ha & Hfirst). exists (S j).
        repeat split; [lia|done|done|].
        intros [|j'] b Hlt Hb; simpl in Hb.
        -- by injection Hb as <-.
        -- apply (Hfirst j' b); [lia|done].
      * intros (j & -> & Hj & Ha & Hfirst). destruct j as [|j].
        -- simpl in Hj. injection Hj as <-. done.
        -- exists j. repeat split; [lia|done|done|].
           intros j' b Hlt Hb. apply (Hfirst (S j') b); [lia|done].
Qed.

Lemma lookup_from_None (l : list Account) (n : string) (k : nat) :
  lookup_from k l n = None ↔ ∀ b, b ∈ l → Name b ≠ n.
Proof.
  revert k. induction l as [|x l IH]; intros k; simpl.
  - split; [|done]. intros _ b Hb. by apply elem_of_nil in Hb.
  - destruct (String.eqb_spec (Name x) n) as [Heq|Hne].
    + split; [done|]. intros H. exfalso. apply (H x); [left|done].
    + rewrite IH. split.
      * intros H b Hb. apply elem_of_cons in Hb as [->|Hb]; auto.
      * intros H b Hb. apply H. by right.
Qed.

Lemma lookup_from_fmap (f : Account → Account) (l : list Account)
    (n : string) (k : nat) :
  (∀ a, Name (f a) = Name a) →
  lookup_from k (f <$> l) n = prod_map id f <$> lookup_from k l n.
Proof.
  intros Hf. revert k. induction l as [|x l IH]; intros k; simpl; [done|].
  rewrite Hf. destruct (String.eqb (Name x) n); [done|]. apply IH.
Qed.

(** C9. [Group.lookup] returns the first account of the sequence whose
    name is the one asked for, fails with [ErrNoSuchAccount] exactly when
    no account has that name, and does not look at tags: whatever tags the
    accounts are given instead, the same slot is found. *)
Theorem lookup_first_by_name (g : Group) (n : string) :
  (∀ i a, Group_lookup g n = Ok (i, a) ↔
          Accounts g !! i = Some a ∧ Name a = n ∧
          ∀ j b, j < i → Accounts g !! j = Some b → Name b ≠ n)
  ∧ (Group_lookup g n = Err ErrNoSuchAccount ↔
     ∀ b, b ∈ Accounts g → Name b ≠ n)
  ∧ (∀ f : Account → string,
       Group_lookup (with_accounts g (retag f <$> Accounts g)) n =
       match Group_lookup g n with
       | Ok (i, a) => Ok (i, retag f a)
       | Err e => Err e
       end).
Proof.
  unfold Group_lookup. split; [|split].
  - intros i a.
    destruct (lookup_from 0 (Accounts g) n) as [[i' a']|] eqn:E.
    + apply lookup_from_spec in E as (j & -> & Hj & Ha & Hfirst). split.
      * intros [= <- <-]. done.
      * intros (Hi & Hn & Hfirst'). simpl.
        destruct (Nat.lt_trichotomy i j) as [Hlt|[->|Hgt]].
        -- by destruct (Hfirst i a Hlt Hi).
        -- congruence.
        -- by destruct (Hfirst' j a' Hgt Hj).
    + split; [done|]. intros (Hi & Hn & _).
      pose proof (proj1 (lookup_from_None _ _ 0) E) as Hnone.
      destruct (Hnone a); [|done]. apply list_elem_of_lookup. eauto.
  - destruct (lookup_from 0 (Accounts g) n) eqn:E.
    + split; [done|]. intros H.
      pose proof (proj2 (lookup_from_None _ _ 0) H). congruence.
    + split; [|done]. intros _. exact (proj1 (lookup_from_None _ _ 0) E).
  - intros f. simpl. rewrite lookup_from_fmap by done.
    by destruct (lookup_from 0 (Accounts g) n) as [[i a]|].
Qed.

(** *** Deleting *)

Lemma delete_scan_None (sem : LoopVar) (l : list Account) (n : string) :
  ∀ k o, delete_scan sem k l n o = None ↔
         o = None ∧ ∀ b, b ∈ l → Name b ≠ n.
Proof.
  induction l as [|x l IH]; intros k o; simpl.
  - split; [|by intros [-> _]]. intros ->. split; [done|].
    intros b Hb. by apply elem_of_nil in Hb.
  - rewrite IH. destruct (String.eqb_spec (Name x) n) as [Heq|Hne].
    + split; [by intros [? _]|]. intros [_ H]. destruct (H x); [left|done].
    + split; intros [-> H]; (split; [done|]).
      * intros b Hb. apply elem_of_cons in Hb as [->|Hb]; auto.
      * intros b Hb. apply H. by right.
Qed.

(** An account that is not there cannot be deleted, and the group stays as
    it is, whichever way the loop variable is read. *)
Lemma Group_delete_absent (sem : LoopVar) (g : Group) (n : string) :
  (∀ b, b ∈ Accounts g → Name b ≠ n) ↔
  Group_delete sem g n = (g, Some ErrNoSuchAccount).
Proof.
  unfold Group_delete.
  destruct (delete_scan sem 0 (Accounts g) n None) eqn:E.
  - split; [|done]. intros H.
    assert (delete_scan sem 0 (Accounts g) n None = None) as E'
      by (by apply delete_scan_None). congruence.
  - split; [done|]. intros _. by apply delete_scan_None in E as [_ H].
Qed.

Lemma delete_scan_PerLoop (l : list Account) (n : string) :
  ∀ k o, delete_scan PerLoop k l n o = Some 0 ∨
         delete_scan PerLoop k l n o = o.
Proof.
  induction l as [|x l IH]; intros k o; simpl; [by right|].
  destruct (String.eqb (Name x) n); [|apply IH].
  destruct (IH (S k) (Some 0)) as [->| ->]; by left.
Qed.

(** With one loop variable, the element that goes is the last of the
    sequence, whatever its name. *)
Lemma Group_delete_PerLoop_last (g : Group) (n : string) (b : Account) :
  b ∈ Accounts g → Name b = n →
  Group_delete PerLoop g n =
    (with_accounts g (take (List.length (Accounts g) - 1) (Accounts g)), None).
Proof.
  intros Hb Hn. unfold Group_delete.
  destruct (delete_scan PerLoop 0 (Accounts g) n None) eqn:E.
  - simpl. do 2 f_equal. rewrite drop_ge; [by rewrite app_nil_r|].
    apply list_elem_of_lookup in Hb as [i Hi]. apply lookup_lt_Some in Hi.
    lia.
  - apply delete_scan_None in E as [_ H]. by destruct (H b).
Qed.

Lemma delete_scan_PerIteration (l : list Account) (n : string) :
  ∀ k o p,
    delete_scan PerIteration k l n o = Some p →
    (o = Some p ∧ ∀ b, b ∈ l → Name b ≠ n)
    ∨ ∃ j a, p = k + j ∧ l !! j = Some a ∧ Name a = n ∧
             ∀ j' b, j < j' → l !! j' = Some b → Name b ≠ n.
Proof.
  induction l as [|x l IH]; intros k o p; simpl.
  - intros ->. left. split; [done|]. intros b Hb.
    by apply elem_of_nil in Hb.
  - intros H. apply IH in H as [[Ho Hnone]|(j & a & -> & Hj & Ha & Hlast)].
    + destruct (String.eqb_spec (Name x) n) as [Heq|Hne].
      * right. exists 0, x. injection Ho as <-.
        repeat split; [lia|done|].
        intros [|j'] b Hlt Hb; [lia|]. simpl in Hb. apply Hnone.
        apply list_elem_of_lookup. eauto.
      * left. split; [done|]. intros b Hb.
        apply elem_of_cons in Hb as [->|Hb]; auto.
    + right. exists (S j), a. repeat split; [lia|done|done|].
      intros [|j'] b Hlt Hb; [lia|]. simpl in Hb.
      apply (Hlast j' b); [lia|done].
Qed.

(** With a loop variable per iteration, the element that goes is the last
    one with the name. *)
Lemma Group_delete_PerIteration_last (g g' : Group) (n : string) :
  Group_delete PerIteration g n = (g', None) →
  ∃ j a, Accounts g !! j = Some a ∧ Name a = n ∧
         (∀ j' b, j < j' → Accounts g !! j' = Some b → Name b ≠ n) ∧
         g' = with_accounts g (take j (Accounts g) ++ drop (S j) (Accounts g)).
Proof.
  unfold Group_delete.
  destruct (delete_scan PerIteration 0 (Accounts g) n None) as [p|] eqn:E;
    [|done].
  intros [= <-].
  apply delete_scan_PerIteration in E
    as [[? _]|(j & a & -> & Hj & Ha & Hlast)]; [done|].
  exists j, a. done.
Qed.

(** C3. [Group.delete] does not remove the first account with the name.
    In [mailboxes] the first account named [mail] is [mail_work]; deleting
    [mail] leaves [mail_work] there and removes [mail_home], under either
    reading of the loop variable.  With the one loop variable of Go up to
    1.21, deleting [bakerstreet] from [cases] removes [scotlandyard]. *)
Theorem delete_removes_another_account :
  (∀ sem, Group_delete sem mailboxes "mail" =
            (with_accounts mailboxes [mail_work], None))
  ∧ Group_lookup mailboxes "mail" = Ok (0, mail_work)
  ∧ remove_first "mail" (Accounts mailboxes) = [mail_home]
  ∧ Group_delete PerLoop cases "bakerstreet" =
      (with_accounts cases [bakerstreet], None)
  ∧ remove_first "bakerstreet" (Accounts cases) = [scotlandyard].
Proof.
  split; [intros []; reflexivity|]. repeat split.
Qed.

(** ** Mutations *)

Lemma Group_exists_name_spec (g : Group) (name : string) :
  Group_exists_name g name = true ↔ ∃ b, b ∈ Accounts g ∧ Name b = name.
Proof.
  unfold Group_exists_name. rewrite existsb_exists. split.
  - intros (b & Hin & Hb). apply String.eqb_eq in Hb. exists b.
    by rewrite list_elem_of_In.
  - intros (b & Hin & <-). exists b. rewrite <- list_elem_of_In.
    by rewrite String.eqb_refl.
Qed.

Lemma Group_lookup_error (g : Group) (acc : string) (e : Error) :
  Group_lookup g acc = Err e → e = ErrNoSuchAccount.
Proof.
  unfold Group_lookup. destruct (lookup_from 0 (Accounts g) acc); congruence.
Qed.



(** C8. [OptsAccTag] is a lookup by name followed by a write of the tag,
    with no check of the (name, tag) pairs: on [mailboxes], whose keys are
    distinct, setting the tag of [mail] to [home] succeeds and leaves two
    accounts with the key ([mail], [home]). *)
Theorem set_tag_can_break_unique_keys :
  (∀ tag g acc,
     OptsAccTag tag g acc =
       match Group_lookup g acc with
       | Err e => (g, Some e)
       | Ok (i, a) =>
           (with_accounts g (<[i := retag (λ _, tag) a]> (Accounts g)), None)
       end)
  ∧ ∃ g acc tag g' i j a b,
      unique_keys g ∧ OptsAccTag tag g acc = (g', None) ∧
      i ≠ j ∧ Accounts g' !! i = Some a ∧ Accounts g' !! j = Some b ∧
      account_key a = account_key b ∧ ¬ unique_keys g'.
Proof.
  split.
  - intros tag g acc. unfold OptsAccTag.
    by destruct (Group_lookup g acc) as [[i a]|e].
  - exists mailboxes, "mail", "home". eexists. exists 0, 1. do 2 eexists.
    split; [|split; [reflexivity|]].
    + unfold unique_keys. simpl. apply NoDup_cons. split.
      * intros H. apply list_elem_of_singleton in H. discriminate H.
      * apply NoDup_singleton.
    + repeat split; [lia|]. unfold unique_keys. simpl.
      intros H. apply NoDup_cons in H as [H _]. apply H. left.
Qed.

(** ** The query resolver *)

Lemma Split_not_nil (s : string) (sep : ascii) : Split s sep ≠ [].
Proof.
  destruct s as [|c s]; simpl; [done|].
  destruct (Ascii.eqb c sep); [done|]. by destruct (Split s sep).
Qed.

Lemma Split_length (s : string) (sep : ascii) :
  List.length (Split s sep) = S (count_byte sep s).
Proof.
  induction s as [|c s IH]; simpl; [done|].
  destruct (Ascii.eqb c sep); simpl; [by rewrite IH|].
  destruct (Split s sep); simpl in *; lia.
Qed.

Lemma Split_no_separator (s : string) (sep : ascii) :
  count_byte sep s = 0 → Split s sep = [s].
Proof.
  induction s as [|c s IH]; simpl; [done|].
  destruct (Ascii.eqb c sep); simpl; [done|]. intros H. by rewrite IH.
Qed.

Lemma Split_app (a b : string) (sep : ascii) :
  count_byte sep a = 0 →
  Split (a ++ String sep b) sep = a :: Split b sep.
Proof.
  induction a as [|c a IH]; simpl.
  - intros _. by rewrite Ascii.eqb_refl.
  - destruct (Ascii.eqb c sep); simpl; [done|]. intros H. by rewrite IH.
Qed.

Lemma Split_inv (s : string) (sep : ascii) :
  ∀ h t, Split s sep = h :: t →
         count_byte sep h = 0 ∧
         ((t = [] ∧ s = h) ∨ ∃ r, s = h ++ String sep r ∧ Split r sep = t).
Proof.
  induction s as [|c s IH]; simpl; intros h t.
  - intros [= <- <-]. split; [done|]. by left.
  - destruct (Ascii.eqb_spec c sep) as [->|Hne].
    + intros [= <- <-]. split; [done|]. right. by exists s.
    + destruct (Split s sep) as [|h' t'] eqn:E.
      * by destruct (Split_not_nil s sep).
      * intros [= <- <-]. destruct (IH h' t' eq_refl) as [Hc Hs].
        split.
        -- simpl. by destruct (Ascii.eqb_spec c sep).
        -- destruct Hs as [[-> ->]|(r & -> & Hr)]; [by left|].
           right. by exists r.
Qed.

Lemma SplitQuery_Ok (q a b : string) :
  SplitQuery q = Ok (a, b) ↔
  q = a ++ String querySplitPoint b ∧
  count_byte querySplitPoint a = 0 ∧ count_byte querySplitPoint b = 0.
Proof.
  unfold SplitQuery. split.
  - destruct (Split q querySplitPoint) as [|h [|h' [|? ?]]] eqn:E; try done.
    intros [= -> ->]. apply Split_inv in E as [Ha [[? _]|(r & -> & Hr)]];
      [done|].
    apply Split_inv in Hr as [Hb [[_ ->]|(r' & _ & Hr')]]; [done|].
    by destruct (Split_not_nil r' querySplitPoint).
  - intros (-> & Ha & Hb). by rewrite Split_app, Split_no_separator.
Qed.

Lemma SplitQuery_Err (q : string) (e : Error) :
  SplitQuery q = Err e → e = ErrInvalidQuery.
Proof.
  unfold SplitQuery.
  destruct (Split q querySplitPoint) as [|h [|h' [|? ?]]]; congruence.
Qed.

(** C7. [SplitQuery] returns the text before and the text after the
    separator exactly when the query holds one ['@'], empty halves
    included, and fails with [ErrInvalidQuery] exactly when it holds none
    or more than one; the three queries of the specification come out as
    it says. *)
Theorem SplitQuery_exactly_one_separator (q : string) :
  (∀ a b, SplitQuery q = Ok (a, b) ↔
          q = a ++ "@" ++ b ∧ count_byte "@" a = 0 ∧ count_byte "@" b = 0)
  ∧ (count_byte "@" q = 1 ↔ ∃ a b, SplitQuery q = Ok (a, b))
  ∧ (count_byte "@" q ≠ 1 ↔ SplitQuery q = Err ErrInvalidQuery)
  ∧ SplitQuery "detective@bakerstreet" = Ok ("detective", "bakerstreet")
  ∧ SplitQuery "detective" = Err ErrInvalidQuery
  ∧ SplitQuery "a@b@c" = Err ErrInvalidQuery
  ∧ SplitQuery "@" = Ok ("", "").
Proof.
  assert (Hlen : List.length (Split q querySplitPoint)
                 = S (count_byte "@" q)) by apply Split_length.
  split; [intros a b; apply SplitQuery_Ok|].
  split; [|split; [|by repeat split]].
  - unfold SplitQuery.
    destruct (Split q querySplitPoint) as [|h [|h' [|? ?]]];
      simpl in Hlen; split; try lia; try (by intros (a & b & ?)).
    intros _. by exists h, h'.
  - unfold SplitQuery.
    destruct (Split q querySplitPoint) as [|h [|h' [|? ?]]];
      simpl in Hlen; split; try done; try lia.
Qed.

(** ** The orchestrator *)

Section SherlockFacts.
Context {St : Type} `{FS : FileSystem St} `{SEC : Security}.

Lemma LoadGroup_decrypt_failure (sh : St) (gid key : string) (data : bytes)
    (cause : Error) :
  ReadGroupVault sh gid = Ok data →
  DecryptVault data key = Err cause →
  LoadGroup sh gid key = Err ErrWrongKey.
Proof. intros Hread Hdec. unfold LoadGroup. by rewrite Hread, Hdec. Qed.

(** C1. When the query does not resolve, or the group cannot be loaded and
    decrypted, or the mutation returns an error, [UpdateState] returns that
    error and the store is the one it was: no blob has changed. *)
Theorem UpdateState_failure_writes_nothing (sh : St) (query key : string)
    (opt : StateOption) (e : Error) :
  SplitQuery query = Err e
  ∨ (∃ gid name, SplitQuery query = Ok (gid, name) ∧
                 LoadGroup sh gid key = Err e)
  ∨ (∃ gid name g g', SplitQuery query = Ok (gid, name) ∧
                      LoadGroup sh gid key = Ok g ∧
                      opt g name = (g', Some e)) →
  UpdateState sh query key opt = (sh, Some e)
  ∧ ∀ gid, ReadGroupVault (UpdateState sh query key opt).1 gid
           = ReadGroupVault sh gid.
Proof.
  intros H.
  assert (UpdateState sh query key opt = (sh, Some e)) as Hres.
  { unfold UpdateState.
    destruct H as [Hq|[(gid & name & Hq & Hl)|(gid & name & g & g' & Hq & Hl & Ho)]].
    - by rewrite Hq.
    - by rewrite Hq, Hl.
    - by rewrite Hq, Hl, Ho. }
  split; [done|]. intros gid. by rewrite Hres.
Qed.

(** C4, as the code has it.  [IsSetUp] fails with [ErrNotSetup] exactly
    when the metadata of [default] or its vault is missing, one of the two
    being enough, where a check that returns no error reports a missing
    item; it succeeds exactly when both checks return an error. *)
Theorem IsSetUp_needs_metadata_and_vault (sh : St) :
  (IsSetUp sh = Some ErrNotSetup ↔
     GroupExists sh "default" = None ∨ VaultExists sh "default" = None)
  ∧ (IsSetUp sh = None ↔
     GroupExists sh "default" ≠ None ∧ VaultExists sh "default" ≠ None).
Proof.
  unfold IsSetUp.
  destruct (GroupExists sh "default"), (VaultExists sh "default");
    (split; split); try done; try tauto; by intros [?|?].
Qed.

(** C6. Whatever error the codec gives when it cannot decrypt the blob of
    the group, [LoadGroup] and, through it, [GetAccount] and [UpdateState],
    as well as [CheckGroupKey], return [ErrWrongKey]; the cause does not
    show in the result. *)
Theorem decrypt_failure_is_WrongKey (sh : St) (query key gid name : string)
    (data : bytes) (cause : Error) :
  SplitQuery query = Ok (gid, name) →
  ReadGroupVault sh gid = Ok data →
  DecryptVault data key = Err cause →
  LoadGroup sh gid key = Err ErrWrongKey
  ∧ GetAccount sh query key = Err ErrWrongKey
  ∧ CheckGroupKey sh query key = Some ErrWrongKey
  ∧ ∀ opt, UpdateState sh query key opt = (sh, Some ErrWrongKey).
Proof.
  intros Hq Hread Hdec.
  pose proof (LoadGroup_decrypt_failure _ _ _ _ _ Hread Hdec) as Hload.
  split; [done|]. split; [|split].
  - unfold GetAccount. by rewrite Hq, Hload.
  - unfold CheckGroupKey. by rewrite Hq, Hread, Hdec.
  - intros opt. unfold UpdateState. by rewrite Hq, Hload.
Qed.

(** C10. [OptAddAccount] never reads the account name of the query: the
    mutation is [Group.append] of its own account, and [UpdateState] on
    [g@x] and on [g@y] are the same computation, the one that loads [g],
    appends the account and writes the group back. *)
Theorem OptAddAccount_ignores_query_name (sh : St) (gid x y key : string)
    (a : Account) :
  count_byte "@" gid = 0 → count_byte "@" x = 0 → count_byte "@" y = 0 →
  (∀ g, OptAddAccount a g x = Group_append g a
        ∧ OptAddAccount a g y = Group_append g a)
  ∧ UpdateState sh (gid ++ "@" ++ x) key (OptAddAccount a)
    = UpdateState sh (gid ++ "@" ++ y) key (OptAddAccount a)
  ∧ UpdateState sh (gid ++ "@" ++ x) key (OptAddAccount a)
    = match LoadGroup sh gid key with
      | Err e => (sh, Some e)
      | Ok g =>
          match Group_append g a with
          | (_, Some e) => (sh, Some e)
          | (g', None) => WriteGroup sh gid key g'
          end
      end.
Proof.
  intros Hg Hx Hy.
  assert (∀ z, count_byte "@" z = 0 →
               SplitQuery (gid ++ "@" ++ z) = Ok (gid, z)) as Hsplit.
  { intros z Hz. by apply SplitQuery_Ok. }
  split; [done|]. unfold UpdateState.
  rewrite (Hsplit x Hx), (Hsplit y Hy). done.
Qed.

End SherlockFacts.

(** ** The statements on the store in memory *)

(** Adding [bakerstreet] a second time to [detective] is refused, and the
    store is untouched. *)
Lemma UpdateState_failure_writes_nothing_run :
  UpdateState two_groups "detective@bakerstreet" "K2"
    (OptAddAccount bakerstreet) = (two_groups, Some ErrAccountExists)
  ∧ ∀ gid,
      ReadGroupVault
        (UpdateState two_groups "detective@bakerstreet" "K2"
           (OptAddAccount bakerstreet)).1 gid
      = ReadGroupVault two_groups gid.
Proof.
  apply (UpdateState_failure_writes_nothing two_groups
           "detective@bakerstreet" "K2" (OptAddAccount bakerstreet)
           ErrAccountExists).
  right; right. exists "detective", "bakerstreet", detective, detective.
  repeat split; vm_compute; reflexivity.
Defined.

(** [metadata_only] has the metadata of [default], and [IsSetUp] fails on
    it all the same. *)
Lemma IsSetUp_fails_with_metadata_present :
  ¬ (IsSetUp metadata_only = Some ErrNotSetup ↔
     GroupExists metadata_only "default" = None
     ∧ VaultExists metadata_only "default" = None).
Proof.
  intros [H _]. destruct (H eq_refl) as [Hmeta _]. vm_compute in Hmeta.
  discriminate Hmeta.
Qed.


(** The wrong key on the blob of [detective]. *)
Lemma decrypt_failure_is_WrongKey_run :
  DecryptVault detective_blob "WRONG"
    = Err (ErrOther "cipher: message authentication failed")
  ∧ GetAccount two_groups "detective@bakerstreet" "WRONG" = Err ErrWrongKey
  ∧ CheckGroupKey two_groups "detective@bakerstreet" "WRONG"
    = Some ErrWrongKey.
Proof.
  split; [reflexivity|].
  pose proof (decrypt_failure_is_WrongKey two_groups
                "detective@bakerstreet" "WRONG" "detective" "bakerstreet"
                detective_blob
                (ErrOther "cipher: message authentication failed")
                eq_refl eq_refl eq_refl) as (_ & Hget & Hcheck & _).
  split; [exact Hget | exact Hcheck].
Defined.

(** The same account added through two queries on [detective]. *)
Lemma OptAddAccount_ignores_query_name_run :
  UpdateState two_groups "detective@bakerstreet" "K2"
    (OptAddAccount scotlandyard)
  = UpdateState two_groups "detective@moriarty" "K2"
      (OptAddAccount scotlandyard).
Proof.
  exact (proj1 (proj2 (OptAddAccount_ignores_query_name two_groups
                         "detective" "bakerstreet" "moriarty" "K2"
                         scotlandyard eq_refl eq_refl eq_refl))).
Defined.

(** * Further properties *)

(** ** Groups: how the operations compose *)

Lemma lookup_from_snoc (l : list Account) (a : Account) (n : string) :
  ∀ k, lookup_from k (l ++ [a]) n =
       match lookup_from k l n with
       | Some p => Some p
       | None =>
           if String.eqb (Name a) n then Some (k + List.length l, a)
           else None
       end.
Proof.
  induction l as [|x l IH]; intros k; simpl.
  - rewrite Nat.add_0_r. done.
  - destruct (String.eqb (Name x) n); [done|]. rewrite IH.
    destruct (lookup_from (S k) l n); [done|].
    destruct (String.eqb (Name a) n); [|done]. do 2 f_equal. lia.
Qed.

Lemma delete_scan_snoc (sem : LoopVar) (l : list Account) (a : Account)
    (n : string) :
  ∀ k o, delete_scan sem k (l ++ [a]) n o =
         if String.eqb (Name a) n
         then Some (addr_of_i sem (k + List.length l))
         else delete_scan sem k l n o.
Proof.
  induction l as [|x l IH]; intros k o; simpl.
  - rewrite Nat.add_0_r. done.
  - rewrite IH. replace (S k + List.length l) with (k + S (List.length l))
      by lia. done.
Qed.

Lemma Group_append_Ok (g g' : Group) (a : Account) :
  Group_append g a = (g', None) →
  Group_exists g a = false ∧ g' = with_accounts g (Accounts g ++ [a]).
Proof.
  unfold Group_append. destruct (Group_exists g a); [done|].
  by intros [= <-].
Qed.

Lemma Group_lookup_snoc (g : Group) (a : Account) (n : string) :
  Group_lookup (with_accounts g (Accounts g ++ [a])) n =
    match Group_lookup g n with
    | Ok p => Ok p
    | Err _ =>
        if String.eqb (Name a) n then Ok (List.length (Accounts g), a)
        else Err ErrNoSuchAccount
    end.
Proof.
  unfold Group_lookup. simpl. rewrite lookup_from_snoc.
  destruct (lookup_from 0 (Accounts g) n); [done|].
  by destruct (String.eqb (Name a) n).
Qed.

(** X1. A successful [Group.append] keeps the invariant of the group: when
    no two accounts share name and tag before, none do after. *)
Theorem append_keeps_unique_keys (g g' : Group) (a : Account) :
  unique_keys g → Group_append g a = (g', None) → unique_keys g'.
Proof.
  intros Huniq Happ. apply Group_append_Ok in Happ as [Hfresh ->].
  unfold unique_keys in *. simpl. rewrite fmap_app. apply NoDup_app.
  split; [done|]. split; [|apply NoDup_singleton].
  intros k Hk Hin. apply list_elem_of_singleton in Hin. subst k.
  apply list_elem_of_fmap in Hk as (b & Hkey & Hb).
  assert (Group_exists g a = true); [|congruence].
  apply Group_exists_spec. exists b. unfold account_key in Hkey.
  by injection Hkey as <- <-.
Qed.

(** X2. After a successful [Group.append], [Group.lookup] answers every
    name that it answered before with the same slot and account; a name
    that was not there is answered only if it is the name of the new
    account, with the new, last slot. *)
Theorem append_then_lookup (g g' : Group) (a : Account) (n : string) :
  Group_append g a = (g', None) →
  Group_lookup g' n =
    match Group_lookup g n with
    | Ok p => Ok p
    | Err _ =>
        if String.eqb (Name a) n then Ok (List.length (Accounts g), a)
        else Err ErrNoSuchAccount
    end.
Proof.
  intros Happ. apply Group_append_Ok in Happ as [_ ->].
  apply Group_lookup_snoc.
Qed.

(** X3. [Group.delete] fails exactly when no account of the group has the
    name; the error is [ErrNoSuchAccount] and the group is the one it was.
    This does not depend on how the loop variable is read. *)
Theorem delete_fails_iff_absent (sem : LoopVar) (g : Group) (n : string) :
  ((∀ b, b ∈ Accounts g → Name b ≠ n) ↔
     Group_delete sem g n = (g, Some ErrNoSuchAccount))
  ∧ ((∃ b, b ∈ Accounts g ∧ Name b = n) ↔ (Group_delete sem g n).2 = None).
Proof.
  split; [apply Group_delete_absent|].
  pose proof (Group_delete_absent sem g n) as Habs. unfold Group_delete in *.
  destruct (delete_scan sem 0 (Accounts g) n None) eqn:E; simpl.
  - split; [done|]. intros _.
    destruct (existsb (λ b, String.eqb (Name b) n) (Accounts g)) eqn:Hex.
    + apply existsb_exists in Hex as (b & Hb & Hn).
      exists b. rewrite list_elem_of_In. split; [done|].
      by apply String.eqb_eq.
    + exfalso. assert (∀ b, b ∈ Accounts g → Name b ≠ n) as Hnone.
      { intros b Hb Hn. rewrite list_elem_of_In in Hb.
        assert (existsb (λ b, String.eqb (Name b) n) (Accounts g) = true)
          as Hex'; [|congruence].
        apply existsb_exists. exists b. split; [done|].
        by apply String.eqb_eq. }
      apply Habs in Hnone. discriminate Hnone.
  - split; [|done]. intros (b & Hb & Hn).
    apply delete_scan_None in E as [_ Hnone]. by destruct (Hnone b).
Qed.

(** X4. A successful [Group.delete] takes exactly one slot out of the
    sequence and keeps the group id and the order of the other accounts.
    With one loop variable the slot is the last of the sequence; with a
    variable per iteration it is the last slot that holds the name. *)
Theorem delete_removes_one_slot (sem : LoopVar) (g g' : Group)
    (n : string) :
  Group_delete sem g n = (g', None) →
  ∃ j a,
    Accounts g !! j = Some a
    ∧ GID g' = GID g
    ∧ Accounts g' = (take j (Accounts g) ++ drop (S j) (Accounts g))%list
    ∧ List.length (Accounts g) = S (List.length (Accounts g'))
    ∧ match sem with
      | PerLoop => j = List.length (Accounts g) - 1
      | PerIteration =>
          Name a = n ∧
          ∀ j' b, j < j' → Accounts g !! j' = Some b → Name b ≠ n
      end.
Proof.
  intros Hdel.
  assert (∀ j a, Accounts g !! j = Some a →
            List.length (Accounts g) =
            S (List.length (take j (Accounts g) ++ drop (S j) (Accounts g))%list))
    as Hlen.
  { intros j a Hj. apply lookup_lt_Some in Hj.
    rewrite length_app, length_take, length_drop. lia. }
  destruct sem.
  - unfold Group_delete in Hdel.
    destruct (delete_scan PerLoop 0 (Accounts g) n None) as [p|] eqn:E;
      [|done].
    injection Hdel as <-. simpl.
    destruct (Accounts g) as [|x l] eqn:Hacc; [done|].
    destruct (lookup_lt_is_Some_2 (x :: l) (List.length (x :: l) - 1))
      as [a Ha]; [simpl; lia|].
    exists (List.length (x :: l) - 1), a.
    split; [done|]. split; [done|]. split; [done|].
    split; [|done]. rewrite <- Hacc in *. by apply (Hlen _ a).
  - apply Group_delete_PerIteration_last in Hdel
      as (j & a & Hj & Hn & Hlast & ->).
    exists j, a. simpl. repeat split; try done. by apply (Hlen _ a).
Qed.

(** X5. Deleting by its name the account that [Group.append] has just
    added gives back the group as it was before the append, however the
    loop variable is read. *)
Theorem append_then_delete (sem : LoopVar) (g g' : Group) (a : Account) :
  Group_append g a = (g', None) →
  Group_delete sem g' (Name a) = (g, None).
Proof.
  intros Happ. apply Group_append_Ok in Happ as [_ ->].
  unfold Group_delete. simpl. rewrite delete_scan_snoc, String.eqb_refl.
  assert (load_i sem (List.length (Accounts g ++ [a]))
            (addr_of_i sem (0 + List.length (Accounts g)))
          = List.length (Accounts g)) as ->.
  { rewrite length_app. destruct sem; simpl; lia. }
  rewrite take_app_length, drop_ge by (rewrite length_app; simpl; lia).
  rewrite app_nil_r. by destruct g.
Qed.

(** X21. A successful [Group.delete] keeps the invariant of the group:
    the accounts left are accounts that were there, in their order, so no
    two of them share name and tag if none did before. *)
Theorem delete_keeps_unique_keys (sem : LoopVar) (g g' : Group)
    (n : string) :
  unique_keys g → Group_delete sem g n = (g', None) → unique_keys g'.
Proof.
  intros Huniq Hdel. unfold Group_delete in Hdel.
  destruct (delete_scan sem 0 (Accounts g) n None) as [p|]; [|done].
  injection Hdel as <-.
  unfold unique_keys in *. simpl. rewrite <- delete_take_drop.
  eapply sublist_NoDup; [exact Huniq|].
  apply fmap_sublist, sublist_delete.
Qed.

(** ** Mutations: what they keep *)

Lemma Group_lookup_Ok (g : Group) (n : string) (i : nat) (a : Account) :
  Group_lookup g n = Ok (i, a) →
  Accounts g !! i = Some a ∧ Name a = n ∧
  ∀ j b, j < i → Accounts g !! j = Some b → Name b ≠ n.
Proof.
  unfold Group_lookup.
  destruct (lookup_from 0 (Accounts g) n) as [p|] eqn:E; [|done].
  intros [= ->]. apply lookup_from_spec in E as (j & -> & H). exact H.
Qed.

Lemma Group_lookup_absent (g : Group) (n : string) :
  (∀ b, b ∈ Accounts g → Name b ≠ n) →
  Group_lookup g n = Err ErrNoSuchAccount.
Proof.
  intros H. unfold Group_lookup.
  by rewrite (proj2 (lookup_from_None (Accounts g) n 0) H).
Qed.

Lemma insert_elem_of {A : Type} (l : list A) (i : nat) (x z : A) :
  z ∈ <[i:=x]> l → z = x ∨ z ∈ l.
Proof.
  revert i. induction l as [|y l IH]; intros [|i]; simpl; try by right.
  - intros H. apply elem_of_cons in H as [->|H]; [by left|].
    right. by right.
  - intros H. apply elem_of_cons in H as [->|H]; [right; by left|].
    destruct (IH i H) as [->|Hz]; [by left|]. right. by right.
Qed.

Lemma NoDup_insert_fresh {A : Type} (l : list A) (i : nat) (x : A) :
  NoDup l → x ∉ l → NoDup (<[i:=x]> l).
Proof.
  revert i. induction l as [|y l IH]; intros i Hnd Hx; [done|].
  apply NoDup_cons in Hnd as [Hy Hnd].
  apply not_elem_of_cons in Hx as [Hxy Hx].
  destruct i as [|i]; simpl; apply NoDup_cons.
  - done.
  - split; [|by apply IH]. intros Hin.
    apply insert_elem_of in Hin as [->|Hin]; done.
Qed.

Lemma OptAccName_Ok (name : string) (g g' : Group) (acc : string) :
  OptAccName name g acc = (g', None) →
  (∀ b, b ∈ Accounts g → Name b ≠ name)
  ∧ ∃ i a, Group_lookup g acc = Ok (i, a)
           ∧ g' = with_accounts g
                    (<[i := {| Name := name; Tag := Tag a;
                               Secret := Secret a;
                               CreatedOn := CreatedOn a |}]> (Accounts g)).
Proof.
  unfold OptAccName.
  destruct (Group_exists_name g name) eqn:Hex; [done|].
  destruct (Group_lookup g acc) as [[i a]|e] eqn:Hl; [|done].
  intros [= <-]. split; [|by exists i, a].
  intros b Hb Hn.
  assert (Group_exists_name g name = true); [|congruence].
  apply Group_exists_name_spec. by exists b.
Qed.




(** X9. [OptsAccTag] keeps the invariant of the group when the check that
    [Group.append] makes would pass for the new pair: if no account has
    the name of the query together with the new tag, a successful tag
    change leaves no two accounts with the same name and tag. *)
Theorem set_tag_keeps_unique_keys_when_fresh (tag : string) (g g' : Group)
    (acc : string) :
  unique_keys g →
  (∀ b, b ∈ Accounts g → ¬ (Name b = acc ∧ Tag b = tag)) →
  OptsAccTag tag g acc = (g', None) →
  unique_keys g'.
Proof.
  intros Huniq Hfresh Htag. unfold OptsAccTag in Htag.
  destruct (Group_lookup g acc) as [[i a]|e] eqn:Hl; [|done].
  injection Htag as <-. apply Group_lookup_Ok in Hl as (Hi & Hn & _).
  unfold unique_keys in *. simpl. rewrite list_fmap_insert.
  apply NoDup_insert_fresh; [done|]. intros Hin.
  apply list_elem_of_fmap in Hin as (b & Hkey & Hb).
  apply (Hfresh b Hb). unfold account_key in Hkey. simpl in Hkey.
  injection Hkey as Hname Htag'. split; congruence.
Qed.

(** ** The orchestrator: how the operations compose *)

Section SherlockMore.
Context {St : Type} `{FS : FileSystem St} `{SEC : Security}.

(** X10. [UpdateState] touches the store in one way only.  Either it
    returns an error and the store it was given, or the query resolved,
    the group loaded, the mutation succeeded, the mutated group was
    serialized and encrypted under the key that opened it, and the outcome
    is that of the single [Write] of this blob to the group of the query. *)
Theorem UpdateState_writes_once (sh : St) (query key : string)
    (opt : StateOption) :
  (∃ e, UpdateState sh query key opt = (sh, Some e))
  ∨ (∃ gid name g g' serialized encrypted,
       SplitQuery query = Ok (gid, name)
       ∧ LoadGroup sh gid key = Ok g
       ∧ opt g name = (g', None)
       ∧ serizalize g' = Ok serialized
       ∧ EncryptVault serialized key = Ok encrypted
       ∧ UpdateState sh query key opt = Write sh gid encrypted).
Proof.
  unfold UpdateState, WriteGroup.
  destruct (SplitQuery query) as [[gid name]|e] eqn:Hq; [|left; by exists e].
  destruct (LoadGroup sh gid key) as [g|e] eqn:Hl; [|left; by exists e].
  destruct (opt g name) as [g' [e|]] eqn:Ho; [left; by exists e|].
  destruct (serizalize g') as [ser|e] eqn:Hs; [|left; by exists e].
  destruct (EncryptVault ser key) as [enc|e] eqn:He; [|left; by exists e].
  right. by exists gid, name, g, g', ser, enc.
Qed.

(** X11. [CheckGroupKey] predicts the other operations.  It succeeds
    exactly when the query resolves and its group loads under the key;
    when it fails, [GetAccount] and [UpdateState], with any mutation, fail
    with the same error and the store untouched; when it succeeds,
    [GetAccount] can only fail with [ErrNoSuchAccount]. *)
Theorem CheckGroupKey_predicts (sh : St) (query key : string) :
  (CheckGroupKey sh query key = None ↔
     ∃ gid name g, SplitQuery query = Ok (gid, name)
                   ∧ LoadGroup sh gid key = Ok g)
  ∧ (∀ e, CheckGroupKey sh query key = Some e →
          GetAccount sh query key = Err e
          ∧ ∀ opt, UpdateState sh query key opt = (sh, Some e))
  ∧ (CheckGroupKey sh query key = None →
     (∃ a, GetAccount sh query key = Ok a)
     ∨ GetAccount sh query key = Err ErrNoSuchAccount).
Proof.
  unfold CheckGroupKey, GetAccount, UpdateState, LoadGroup.
  destruct (SplitQuery query) as [[gid name]|e] eqn:Hq.
  - destruct (ReadGroupVault sh gid) as [data|e] eqn:Hr.
    + destruct (DecryptVault data key) as [g|e] eqn:Hd.
      * split; [|split].
        -- split; [|done]. intros _. exists gid, name, g.
           by rewrite Hr, Hd.
        -- done.
        -- intros _. destruct (Group_lookup g name) as [[i a]|e] eqn:Hl.
           ++ left. by exists a.
           ++ right. by apply Group_lookup_error in Hl as ->.
      * split; [|split]; [|by intros ? [= <-]|done].
        split; [done|]. intros (gid' & name' & g & [= <- <-] & Hg).
        by rewrite Hr, Hd in Hg.
    + split; [|split]; [|by intros ? [= <-]|done].
      split; [done|]. intros (gid' & name' & g & [= <- <-] & Hg).
      by rewrite Hr in Hg.
  - split; [|split]; [|by intros ? [= <-]|done].
    split; [done|]. by intros (gid' & name' & g & ? & _).
Qed.

(** X12. The account that [GetAccount] returns is an account of the group
    named in the query, as decrypted from the store, carries the name given
    in the query, and is the first of the group to do so. *)
Theorem GetAccount_returns_first_named (sh : St) (query key : string)
    (a : Account) :
  GetAccount sh query key = Ok a →
  ∃ gid name g i,
    SplitQuery query = Ok (gid, name)
    ∧ LoadGroup sh gid key = Ok g
    ∧ Accounts g !! i = Some a
    ∧ Name a = name
    ∧ ∀ j b, j < i → Accounts g !! j = Some b → Name b ≠ name.
Proof.
  unfold GetAccount.
  destruct (SplitQuery query) as [[gid name]|e] eqn:Hq; [|done].
  destruct (LoadGroup sh gid key) as [g|e] eqn:Hl; [|done].
  destruct (Group_lookup g name) as [[i b]|e] eqn:Hg; [|done].
  intros [= ->]. apply Group_lookup_Ok in Hg as (Hi & Hn & Hfirst).
  by exists gid, name, g, i.
Qed.

(** X13. The errors of [GetAccount]: [ErrInvalidQuery] for a query without
    exactly one separator, the error of the store when the vault cannot be
    read, [ErrWrongKey] when it cannot be decrypted, [ErrNoSuchAccount]
    when the group has no account of that name; nothing else. *)
Theorem GetAccount_errors (sh : St) (query key : string) (e : Error) :
  GetAccount sh query key = Err e →
  (e = ErrInvalidQuery ∧ SplitQuery query = Err ErrInvalidQuery)
  ∨ ∃ gid name,
      SplitQuery query = Ok (gid, name)
      ∧ (ReadGroupVault sh gid = Err e
         ∨ (e = ErrWrongKey ∧
            ∃ data cause, ReadGroupVault sh gid = Ok data
                          ∧ DecryptVault data key = Err cause)
         ∨ (e = ErrNoSuchAccount ∧
            ∃ g, LoadGroup sh gid key = Ok g
                 ∧ ∀ b, b ∈ Accounts g → Name b ≠ name)).
Proof.
  unfold GetAccount.
  destruct (SplitQuery query) as [[gid name]|e'] eqn:Hq.
  - intros H. right. exists gid, name. split; [done|].
    unfold LoadGroup in *.
    destruct (ReadGroupVault sh gid) as [data|e'] eqn:Hr;
      [|left; congruence].
    destruct (DecryptVault data key) as [g|cause] eqn:Hd.
    + right; right.
      destruct (Group_lookup g name) as [[i b]|e'] eqn:Hg; [done|].
      injection H as <-. pose proof (Group_lookup_error _ _ _ Hg) as ->.
      split; [done|]. exists g. split; [done|].
      unfold Group_lookup in Hg.
      destruct (lookup_from 0 (Accounts g) name) eqn:E; [done|].
      exact (proj1 (lookup_from_None _ _ 0) E).
    + right; left. injection H as <-. split; [done|]. by exists data, cause.
  - intros [= <-]. left. pose proof (SplitQuery_Err _ _ Hq) as ->. done.
Qed.


End SherlockMore.

(** ** Package terminal *)

Lemma string_length_app (a b : string) :
  String.length (a ++ b) = String.length a + String.length b.
Proof. induction a as [|c a IH]; simpl; [done|]. by rewrite IH. Qed.

Lemma substring_all (s : string) : substring 0 (String.length s) s = s.
Proof. induction s as [|c s IH]; simpl; [done|]. by rewrite IH. Qed.

Lemma substring_app_l (a b : string) :
  substring 0 (String.length a) (a ++ b) = a.
Proof.
  induction a as [|c a IH]; simpl; [by destruct b|]. by rewrite IH.
Qed.

Lemma substring_app_r (a b : string) :
  substring (String.length a) (String.length b) (a ++ b) = b.
Proof.
  induction a as [|c a IH]; simpl; [apply substring_all|]. apply IH.
Qed.

Lemma TrimSuffix_app (a suffix : string) : TrimSuffix (a ++ suffix) suffix = a.
Proof.
  unfold TrimSuffix, HasSuffix. rewrite string_length_app.
  replace (String.length a + String.length suffix - String.length suffix)
    with (String.length a) by lia.
  rewrite substring_app_r, String.eqb_refl, substring_app_l.
  by rewrite (proj2 (Nat.leb_le _ _)) by lia.
Qed.

Lemma count_byte_app (c : ascii) (a b : string) :
  count_byte c (a ++ b) = count_byte c a + count_byte c b.
Proof. induction a as [|c' a IH]; simpl; [done|]. rewrite IH. lia. Qed.

Lemma last_byte (s : string) (d : ascii) :
  substring (String.length s - 1) 1 s = String d EmptyString →
  ∃ a, s = a ++ String d EmptyString.
Proof.
  induction s as [|c s IH]; [done|].
  destruct s as [|c' s'].
  - simpl. intros [= ->]. by exists EmptyString.
  - replace (String.length (String c (String c' s')) - 1)
      with (S (String.length (String c' s') - 1)) by (simpl; lia).
    intros H. destruct (IH H) as [a Ha]. exists (String c a).
    rewrite Ha. reflexivity.
Qed.

Lemma TrimSuffix_no_delim (s : string) (d : ascii) :
  count_byte d s = 0 → TrimSuffix s (String d EmptyString) = s.
Proof.
  intros Hc. unfold TrimSuffix, HasSuffix.
  destruct (Nat.leb _ _); [|done]. simpl String.length.
  destruct (String.eqb_spec (substring (String.length s - 1) 1 s)
              (String d EmptyString)) as [Heq|]; [|done].
  apply last_byte in Heq as [a ->]. rewrite count_byte_app in Hc. simpl in Hc.
  rewrite Ascii.eqb_refl in Hc. lia.
Qed.

Lemma ReadString_line (typed rest : string) (delim : ascii) :
  count_byte delim typed = 0 →
  ReadString (typed ++ String delim rest) delim
  = (typed ++ String delim EmptyString, None).
Proof.
  induction typed as [|c typed IH]; simpl.
  - by rewrite Ascii.eqb_refl.
  - destruct (Ascii.eqb c delim); [done|]. intros H. by rewrite IH.
Qed.

Lemma ReadString_eof (s : string) (delim : ascii) :
  count_byte delim s = 0 → ReadString s delim = (s, Some (ErrOther "EOF")).
Proof.
  induction s as [|c s IH]; simpl; [done|].
  destruct (Ascii.eqb c delim); [done|]. intros H. by rewrite IH.
Qed.

Lemma first_delim (s : string) (delim : ascii) :
  count_byte delim s = 0
  ∨ ∃ typed rest, s = typed ++ String delim rest ∧ count_byte delim typed = 0.
Proof.
  induction s as [|c s IH]; [by left|]. simpl.
  destruct (Ascii.eqb_spec c delim) as [->|Hne].
  - right. by exists EmptyString, s.
  - destruct IH as [H0|(typed & rest & -> & H0)]; [by left|].
    right. exists (String c typed), rest. split; [done|]. simpl.
    by destruct (Ascii.eqb_spec c delim).
Qed.

(** X15. [YesNo] answers yes exactly when the line read is the single
    letter [y]: the input is [y] and ends there, or starts with [y] and a
    newline.  Any other text, a capital [Y], [yes], a blank before or
    after the letter, is a no. *)
Theorem YesNo_true_iff (stdin : string) :
  YesNo stdin = true ↔
  stdin = "y" ∨ ∃ rest, stdin = "y" ++ String newline rest.
Proof.
  unfold YesNo.
  destruct (first_delim stdin newline) as [H0|(typed & rest & -> & H0)].
  - rewrite ReadString_eof, TrimSuffix_no_delim by done.
    rewrite String.eqb_eq. split; [by left|]. intros [->|[rest ->]]; [done|].
    simpl in H0. lia.
  - rewrite ReadString_line by done. rewrite TrimSuffix_app.
    rewrite String.eqb_eq. split.
    + intros ->. right. by exists rest.
    + intros [H|[rest' H]].
      * exfalso. assert (count_byte newline (typed ++ String newline rest)
                         = count_byte newline "y") as Hc by (by rewrite H).
        rewrite count_byte_app in Hc. simpl in Hc. lia.
      * destruct typed as [|c [|c' typed]]; simpl in H.
        -- by injection H.
        -- by injection H as -> _.
        -- injection H as -> -> _. simpl in H0. lia.
Qed.

Lemma buildHeader_loop_overflow (len : nat) :
  ∀ (steps i : nat) colors,
    (i ≤ 5)%nat → (5 < i + steps)%nat → (i + steps ≤ len)%nat →
    buildHeader_loop len i steps colors = None.
Proof.
  induction steps as [|steps IH]; intros i colors Hi Hlt Hlen; [lia|].
  simpl. rewrite Nat.mod_small by lia.
  destruct (decide (i = 5)) as [->|Hne]; [done|].
  destruct (bgC !! i) as [c|] eqn:Hc; [|done]. apply IH; lia.
Qed.

(** X16. [buildHeader] indexes the five background colours with
    [i % len(h)], which is [i] itself: for a header of more than five
    columns the index leaves the table and the function panics; for one
    of at most five columns, column [i] gets [Bold] and colour [i]. *)
Theorem buildHeader_panics_iff_wide (h : list string) :
  (buildHeader h = None ↔ (5 < List.length h)%nat)
  ∧ ((List.length h ≤ 5)%nat →
     buildHeader h =
       Some ((λ c, [Bold; c]) <$> take (List.length h) bgC)).
Proof.
  assert ((List.length h ≤ 5)%nat →
          buildHeader h =
            Some ((λ c, [Bold; c]) <$> take (List.length h) bgC)) as Hsmall.
  { intros Hle. unfold buildHeader.
    destruct h as [|? [|? [|? [|? [|? [|? ?]]]]]]; simpl in Hle; try lia;
      reflexivity. }
  split; [|done]. split.
  - intros Hnone. destruct (decide (5 < List.length h)%nat); [done|].
    rewrite Hsmall in Hnone by lia. done.
  - intros Hwide. unfold buildHeader. apply buildHeader_loop_overflow; lia.
Qed.

Lemma padding_loop_spec (todo : list string) :
  ∀ front,
    padding_loop (List.length front) (List.length todo) (app front todo)
    = app front ((λ v, " " ++ v ++ " ") <$> todo).
Proof.
  induction todo as [|v todo IH]; intros front; simpl; [done|].
  rewrite list_lookup_middle by done.
  rewrite insert_app_r_alt, Nat.sub_diag by done. simpl.
  specialize (IH (app front [" " ++ v ++ " "])).
  rewrite length_app, <- !app_assoc in IH. simpl in IH.
  rewrite Nat.add_1_r in IH. exact IH.
Qed.

(** X17. [padding] writes every cell of the header in place as the cell
    between two blanks; the cells keep their number and order, and
    [buildHeader], which runs on the padded header, sees the length it
    would have seen before. *)
Theorem padding_pads_every_cell (h : list string) :
  padding h = (λ v, " " ++ v ++ " ") <$> h
  ∧ List.length (padding h) = List.length h
  ∧ buildHeader (padding h) = buildHeader h.
Proof.
  assert (padding h = (λ v, " " ++ v ++ " ") <$> h) as Hpad
    by apply (padding_loop_spec h []).
  split; [done|]. rewrite Hpad. split; [apply length_fmap|].
  unfold buildHeader. by rewrite length_fmap.
Qed.

Lemma Table_loop_spec (Format : Z → string → string) (gid : string)
    (items : list Account) :
  ∀ front,
    Table_loop Format gid (List.length front) items
      (app front (replicate (List.length items) []))
    = app front
        ((λ a, [gid; Name a; "#" ++ Tag a;
                Format (CreatedOn a) prettyDateLayout]) <$> items).
Proof.
  induction items as [|item items IH]; intros front; simpl.
  - done.
  - rewrite insert_app_r_alt, Nat.sub_diag by done. simpl.
    match goal with
    | |- context [app front (?row :: replicate _ _)] =>
        specialize (IH (app front [row]))
    end.
    rewrite length_app, <- !app_assoc in IH. simpl in IH.
    rewrite Nat.add_1_r in IH. exact IH.
Qed.

(** X18. [Group.Table] has one row per account, in the order of the
    group: row [i] holds the group id, the name of account [i], its tag
    behind a [#], and its creation time in the pretty layout. *)
Theorem Table_row_per_account (Format : Z → string → string) (g : Group) :
  List.length (Group_Table Format g) = List.length (Accounts g)
  ∧ ∀ i, Group_Table Format g !! i =
         (λ a, [GID g; Name a; "#" ++ Tag a;
                Format (CreatedOn a) prettyDateLayout]) <$> (Accounts g !! i).
Proof.
  assert (Group_Table Format g =
          (λ a, [GID g; Name a; "#" ++ Tag a;
                 Format (CreatedOn a) prettyDateLayout]) <$> Accounts g)
    as -> by apply (Table_loop_spec Format (GID g) (Accounts g) []).
  split; [apply length_fmap|]. intros i. apply list_lookup_fmap.
Qed.

(** ** The update command *)

Lemma snoc_byte_neq (typed : string) (c : ascii) :
  typed ++ String c EmptyString ≠ typed.
Proof.
  intros H. apply (f_equal String.length) in H.
  rewrite string_length_app in H. simpl in H. lia.
Qed.

Section CommandFacts.
Context {St : Type} `{FS : FileSystem St} `{SEC : Security}.

(** X19. [cmdUpdateAccName] renames to the line as [ReadLine] returns it,
    newline included: for a typed text followed by a newline, the mutation
    run is [OptAccName] of the text with the newline.  When the rename
    succeeds and no account had the typed text as its name, no account has
    it afterwards: a lookup of the typed text fails with
    [ErrNoSuchAccount]. *)
Theorem cmdUpdateAccName_keeps_newline (sh : St) (args0 key : string)
    (typed rest : string) :
  count_byte newline typed = 0 →
  cmdUpdateAccName sh args0 (Ok key) (typed ++ String newline rest)
  = match UpdateState sh args0 key
            (OptAccName (typed ++ String newline EmptyString)) with
    | (sh', Some err) => (sh', PrintedError err)
    | (sh', None) => (sh', PrintedInfo "account name updated")
    end
  ∧ ∀ g g' acc,
      (∀ b, b ∈ Accounts g → Name b ≠ typed) →
      OptAccName (typed ++ String newline EmptyString) g acc = (g', None) →
      Group_lookup g' typed = Err ErrNoSuchAccount.
Proof.
  intros Htyped. split.
  - unfold cmdUpdateAccName, ReadLine. by rewrite ReadString_line.
  - intros g g' acc Hfree Hren.
    apply OptAccName_Ok in Hren as (_ & i & a & _ & ->).
    apply Group_lookup_absent. simpl. intros b Hb.
    apply insert_elem_of in Hb as [->|Hb]; [|by apply Hfree].
    simpl. apply snoc_byte_neq.
Qed.

(** X20. [cmdUpdateAccName] changes nothing when the input for the new
    name ends before a newline: it prints the error of the read, [io.EOF],
    or the error of the password prompt if that failed first, and the
    store is the one it was. *)
Theorem cmdUpdateAccName_needs_newline (sh : St) (args0 stdin : string)
    (readPassword : Result string) :
  count_byte newline stdin = 0 →
  cmdUpdateAccName sh args0 readPassword stdin
  = (sh, PrintedError match readPassword with
                      | Err err => err
                      | Ok _ => ErrOther "EOF"
                      end).
Proof.
  intros H. unfold cmdUpdateAccName, ReadLine. rewrite ReadString_eof by done.
  by destruct readPassword.
Qed.

End CommandFacts.

(** ** The further statements on concrete groups and stores *)

Lemma append_keeps_unique_keys_run : unique_keys cases.
Proof.
  apply (append_keeps_unique_keys detective cases scotlandyard).
  - unfold unique_keys. simpl. apply NoDup_singleton.
  - reflexivity.
Defined.

Lemma append_then_lookup_run :
  Group_lookup cases "scotlandyard" = Ok (1, scotlandyard).
Proof.
  exact (append_then_lookup detective cases scotlandyard "scotlandyard"
           eq_refl).
Defined.

Lemma delete_removes_one_slot_run :
  ∃ j a, Accounts mailboxes !! j = Some a ∧ Name a = "mail"
         ∧ ∀ j' b, j < j' → Accounts mailboxes !! j' = Some b →
                   Name b ≠ "mail".
Proof.
  destruct (delete_removes_one_slot PerIteration mailboxes
              (with_accounts mailboxes [mail_work]) "mail" eq_refl)
    as (j & a & Hj & _ & _ & _ & Hn & Hlast).
  by exists j, a.
Defined.

Lemma append_then_delete_run :
  Group_delete PerLoop cases "scotlandyard" = (detective, None).
Proof.
  exact (append_then_delete PerLoop detective cases scotlandyard eq_refl).
Defined.




Lemma set_tag_keeps_unique_keys_when_fresh_run :
  unique_keys
    (with_accounts mailboxes
       [{| Name := "mail"; Tag := "spam"; Secret := "w0rk";
           CreatedOn := 1 |}; mail_home]).
Proof.
  apply (set_tag_keeps_unique_keys_when_fresh "spam" mailboxes _ "mail").
  - unfold unique_keys. simpl. apply NoDup_cons. split.
    + intros H. apply list_elem_of_singleton in H. discriminate H.
    + apply NoDup_singleton.
  - intros b Hb [_ Ht]. simpl in Hb.
    apply elem_of_cons in Hb as [->|Hb]; [discriminate Ht|].
    apply list_elem_of_singleton in Hb. subst b. discriminate Ht.
  - reflexivity.
Defined.

Lemma GetAccount_returns_first_named_run :
  ∃ gid name g i,
    SplitQuery "detective@bakerstreet" = Ok (gid, name)
    ∧ LoadGroup two_groups gid "K2" = Ok g
    ∧ Accounts g !! i = Some bakerstreet.
Proof.
  assert (GetAccount two_groups "detective@bakerstreet" "K2"
          = Ok bakerstreet) as Hget by (vm_compute; reflexivity).
  destruct (GetAccount_returns_first_named two_groups
              "detective@bakerstreet" "K2" bakerstreet Hget)
    as (gid & name & g & i & H1 & H2 & H3 & _).
  by exists gid, name, g, i.
Defined.

Lemma GetAccount_errors_run :
  GetAccount two_groups "detective@moriarty" "K2" = Err ErrNoSuchAccount
  ∧ ((ErrNoSuchAccount = ErrInvalidQuery
      ∧ SplitQuery "detective@moriarty" = Err ErrInvalidQuery)
     ∨ ∃ gid name, SplitQuery "detective@moriarty" = Ok (gid, name)).
Proof.
  assert (GetAccount two_groups "detective@moriarty" "K2"
          = Err ErrNoSuchAccount) as Hget by (vm_compute; reflexivity).
  split; [exact Hget|].
  destruct (GetAccount_errors two_groups "detective@moriarty" "K2"
              ErrNoSuchAccount Hget)
    as [H|(gid & name & H & _)]; [by left|].
  right. by exists gid, name.
Defined.


Lemma cmdUpdateAccName_keeps_newline_run :
  cmdUpdateAccName two_groups "detective@bakerstreet" (Ok "K2")
    ("moriarty" ++ String newline EmptyString)
  = match UpdateState two_groups "detective@bakerstreet" "K2"
            (OptAccName ("moriarty" ++ String newline EmptyString)) with
    | (sh', Some err) => (sh', PrintedError err)
    | (sh', None) => (sh', PrintedInfo "account name updated")
    end.
Proof.
  exact (proj1 (cmdUpdateAccName_keeps_newline two_groups
                  "detective@bakerstreet" "K2" "moriarty" EmptyString
                  eq_refl)).
Defined.

Lemma cmdUpdateAccName_needs_newline_run :
  cmdUpdateAccName two_groups "detective@bakerstreet" (Ok "K2") "moriarty"
  = (two_groups, PrintedError (ErrOther "EOF")).
Proof.
  exact (cmdUpdateAccName_needs_newline two_groups "detective@bakerstreet"
           "moriarty" (Ok "K2") eq_refl).
Defined.

Lemma delete_keeps_unique_keys_run :
  unique_keys (with_accounts mailboxes [mail_work]).
Proof.
  apply (delete_keeps_unique_keys PerIteration mailboxes _ "mail").
  - unfold unique_keys. simpl. apply NoDup_cons. split.
    + intros H. apply list_elem_of_singleton in H. discriminate H.
    + apply NoDup_singleton.
  - reflexivity.
Defined.
